(** * World generation of retroflightsim: tiling, hill and mountain scatter,
      scenery fields.

    The code embedded here is [setupScene] of [src/script/state/game.ts] as the
    map-generation document of the repository lists it.  JavaScript numbers
    are idealised as real numbers; [Math.random] is a fixed stream of draws
    read through a call counter that is part of the program state. *)

From Stdlib Require Import Reals Lra Lia ZArith List String Bool.
Import ListNotations.

Open Scope R_scope.

(** ** Vectors, quaternions and entities *)

Record Vector3 := mkVector3 { v3x : R; v3y : R; v3z : R }.

Record Quaternion := mkQuaternion { qx : R; qy : R; qz : R; qw : R }.

(** [Vector3.set(x, y, z)] overwrites the three components at once. *)
Definition Vector3_set (_ : Vector3) (x y z : R) : Vector3 := mkVector3 x y z.

(** Assignments to a single component, [v.x = a] and the like. *)
Definition assign_x (v : Vector3) (a : R) : Vector3 := mkVector3 a (v3y v) (v3z v).
Definition assign_y (v : Vector3) (a : R) : Vector3 := mkVector3 (v3x v) a (v3z v).
Definition assign_z (v : Vector3) (a : R) : Vector3 := mkVector3 (v3x v) (v3y v) a.

(** [Quaternion.setFromAxisAngle(axis, angle)] of three.js. *)
Definition setFromAxisAngle (axis : Vector3) (angle : R) : Quaternion :=
  let halfAngle := angle / 2 in
  let s := sin halfAngle in
  mkQuaternion (v3x axis * s) (v3y axis * s) (v3z axis * s) (cos halfAngle).

Inductive EntityClass := SimpleEntity | StaticSceneryEntity | GroundTargetEntity.

Record Entity := mkEntity {
  eclass : EntityClass;
  emodel : string;
  position : Vector3;
  scale : Vector3;
  quaternion : Quaternion
}.

(** A freshly constructed three.js object sits at the origin with unit scale
    and the identity rotation. *)
Definition new_entity (c : EntityClass) (model : string) : Entity :=
  mkEntity c model (mkVector3 0 0 0) (mkVector3 1 1 1) (mkQuaternion 0 0 0 1).

Definition with_position (e : Entity) (p : Vector3) : Entity :=
  mkEntity (eclass e) (emodel e) p (scale e) (quaternion e).
Definition with_scale (e : Entity) (s : Vector3) : Entity :=
  mkEntity (eclass e) (emodel e) (position e) s (quaternion e).
Definition with_quaternion (e : Entity) (q : Quaternion) : Entity :=
  mkEntity (eclass e) (emodel e) (position e) (scale e) q.

(** ** Terrain model: tagged flat meshes *)

(** The terrain members of [PaletteCategory]; mesh names are compared with
    [===] against them. *)
Inductive PaletteCategory :=
| TERRAIN_DEFAULT | TERRAIN_SAND | TERRAIN_BARE | TERRAIN_GRASS
| TERRAIN_WATER | TERRAIN_SHALLOW_WATER.

Definition PaletteCategory_eqb (a b : PaletteCategory) : bool :=
  match a, b with
  | TERRAIN_DEFAULT, TERRAIN_DEFAULT | TERRAIN_SAND, TERRAIN_SAND
  | TERRAIN_BARE, TERRAIN_BARE | TERRAIN_GRASS, TERRAIN_GRASS
  | TERRAIN_WATER, TERRAIN_WATER
  | TERRAIN_SHALLOW_WATER, TERRAIN_SHALLOW_WATER => true
  | _, _ => false
  end.

(** A mesh carries its name and an opaque handle on its geometry. *)
Record Mesh := mkMesh { mesh_name : PaletteCategory; mesh_geometry : nat }.

Record Lod := mkLod { flats : list Mesh }.
Record Model := mkModel { lod : list Lod }.

(** ** Program state and effects *)

(** The scene's children in insertion order, and the number of calls made to
    [Math.random] so far. *)
Record World := mkWorld { scene : list Entity; draws : nat }.

Inductive Error := PreconditionViolation | TypeError.

(** A computation returns, throws, or does not return; each way the state
    reached so far stays. *)
Inductive Outcome (A : Type) :=
| Returned (a : A) (w : World)
| Thrown (e : Error) (w : World)
| NoReturn (w : World).
Arguments Returned {A} a w.
Arguments Thrown {A} e w.
Arguments NoReturn {A} w.

Definition world_of {A} (o : Outcome A) : World :=
  match o with
  | Returned _ w | Thrown _ w | NoReturn w => w
  end.

Definition M (A : Type) := World -> Outcome A.

Definition ret {A} (a : A) : M A := fun w => Returned a w.
Definition throw {A} (e : Error) : M A := fun w => Thrown e w.
Definition bind {A B} (m : M A) (k : A -> M B) : M B :=
  fun w => match m w with
           | Returned a w' => k a w'
           | Thrown e w' => Thrown e w'
           | NoReturn w' => NoReturn w'
           end.

Notation "x <- m ;; k" := (bind m (fun x => k))
  (at level 61, m at next level, right associativity).
Notation "m ;;; k" := (bind m (fun _ => k))
  (at level 61, right associativity).

(** [this.scene.add(e)]: the entity becomes the last child. *)
Definition scene_add (e : Entity) : M unit :=
  fun w => Returned tt (mkWorld (scene w ++ [e]) (draws w)).

(** [for (let i = 0; i < n; i++) body]. *)
Fixpoint for_count (n : nat) (body : M unit) : M unit :=
  match n with
  | O => ret tt
  | S k => body ;;; for_count k body
  end.

(** [for (let x = lo; x <= hi; x++) body(x)] over integers. *)
Fixpoint for_from (fuel : nat) (x : Z) (body : Z -> M unit) : M unit :=
  match fuel with
  | O => ret tt
  | S f => body x ;;; for_from f (x + 1)%Z body
  end.

Definition for_incl (lo hi : Z) (body : Z -> M unit) : M unit :=
  for_from (Z.to_nat (hi + 1 - lo)) lo body.

(** Modelled from the spec: [assertIsDefined] of the utilities, which is not
    among the sources; an undefined value is a fatal precondition violation. *)
Definition assertIsDefined {A} (v : option A) : M A :=
  match v with
  | Some a => ret a
  | None => throw PreconditionViolation
  end.

(** [model.lod[0]]: reading [flats] of a missing level throws. *)
Definition lod0 (model : Model) : M Lod :=
  match lod model with
  | l :: _ => ret l
  | [] => throw TypeError
  end.

(** [flats.find(mesh => mesh.name === tag)]. *)
Definition find_flat (tag : PaletteCategory) (l : Lod) : option Mesh :=
  find (fun mesh => PaletteCategory_eqb (mesh_name mesh) tag) (flats l).

(** ** setupScene *)

Section SetupScene.

(** Constants of [defs.ts], which is not among the sources. *)
Variable TERRAIN_MODEL_SIZE : R.
Variable TERRAIN_SCALE : R.
Variable UP : Vector3.

(** The i-th call of [Math.random] returns [random i]. *)
Variable random : nat -> R.

(** [randomPosOver(mesh, position, spread)], whose body is not among the
    sources: from the mesh, the vector to overwrite, the spread and the number
    of draws made so far it gives the position written and the new number of
    draws, or nothing when the call does not return. *)
Variable randomPosOver : Mesh -> Vector3 -> R -> nat -> option (Vector3 * nat).

Definition Math_random : M R :=
  fun w => Returned (random (draws w)) (mkWorld (scene w) (S (draws w))).

Definition call_randomPosOver (mesh : Mesh) (p : Vector3) (spread : R) : M Vector3 :=
  fun w => match randomPosOver mesh p spread (draws w) with
           | Some (p', n') => Returned p' (mkWorld (scene w) n')
           | None => NoReturn w
           end.

(** *** The tiling loop *)

Definition flip (x : Z) : R :=
  if (Z.rem (Z.abs x) 2 =? 0)%Z then 1 else -1.

(** The entity one iteration builds before it is added to the scene. *)
Definition make_tile (x z : Z) : Entity :=
  let map := new_entity SimpleEntity "assets/map.gltf" in
  let map := with_position map
               (assign_x (position map) (IZR x * TERRAIN_MODEL_SIZE * TERRAIN_SCALE)) in
  let map := with_position map
               (assign_z (position map) (IZR z * TERRAIN_MODEL_SIZE * TERRAIN_SCALE)) in
  let map := with_scale map (assign_x (scale map) (TERRAIN_SCALE * flip x)) in
  let map := with_scale map (assign_z (scale map) (TERRAIN_SCALE * flip z)) in
  map.

Definition add_tile (x z : Z) : M unit := scene_add (make_tile x z).

Definition tiling_loop : M unit :=
  for_incl (-2) 2 (fun x => for_incl (-2) 2 (fun z => add_tile x z)).

(** *** Hills and mountains *)

(** The body of the hill loop.  The arguments of [scale.set] are evaluated
    left to right, each with a draw of its own. *)
Definition place_hill (grass : Mesh) : M unit :=
  let hill := new_entity StaticSceneryEntity "lib:hill" in
  p <- call_randomPosOver grass (position hill) 20000 ;;
  let hill := with_position hill p in
  sx <- Math_random ;;
  sy <- Math_random ;;
  sz <- Math_random ;;
  let hill := with_scale hill
                (Vector3_set (scale hill) (0.8 + sx / 5.0) (0.5 + sy / 2.0) (0.8 + sz / 5.0)) in
  r <- Math_random ;;
  let hill := with_quaternion hill (setFromAxisAngle UP (PI / 4 + (r - 0.5) * PI / 4)) in
  scene_add hill.

(** The body of the mountain loop: the scale is written one component at a
    time. *)
Definition place_mountain (bare : Mesh) : M unit :=
  let mountain := new_entity StaticSceneryEntity "lib:mountain" in
  p <- call_randomPosOver bare (position mountain) 20000 ;;
  let mountain := with_position mountain p in
  sx <- Math_random ;;
  let mountain := with_scale mountain (assign_x (scale mountain) (0.8 + sx / 5.0)) in
  sy <- Math_random ;;
  let mountain := with_scale mountain (assign_y (scale mountain) (0.5 + sy / 2.0)) in
  sz <- Math_random ;;
  let mountain := with_scale mountain (assign_z (scale mountain) (0.8 + sz / 5.0)) in
  r <- Math_random ;;
  let mountain := with_quaternion mountain
                    (setFromAxisAngle UP (PI / 4 + (r - 0.5) * PI / 4)) in
  scene_add mountain.

Definition hill_pass (model : Model) : M unit :=
  l <- lod0 model ;;
  grass <- assertIsDefined (find_flat TERRAIN_GRASS l) ;;
  for_count 30 (place_hill grass).

Definition mountain_pass (model : Model) : M unit :=
  l <- lod0 model ;;
  bare <- assertIsDefined (find_flat TERRAIN_BARE l) ;;
  for_count 20 (place_mountain bare).

(** The callback run once ['assets/map.gltf'] is loaded. *)
Definition on_map_loaded (model : Model) : M unit :=
  hill_pass model ;;; mountain_pass model.

End SetupScene.

(** ** Scenery fields *)

Module FieldPopulator.

Record CellVariation := mkCellVariation {
  probability : R;
  model : string;
  jitter : R;
  randomRotation : bool
}.

Record SceneryFieldSettings := mkSceneryFieldSettings {
  tilesInField : nat;
  cellsInTile : nat;
  tileLength : R;
  cellVariations : list CellVariation
}.

(** The settings [setupScene] ships, with the two variations the document
    lists. *)
Definition fieldOptions : SceneryFieldSettings :=
  mkSceneryFieldSettings 7 2 2500.0
    [ mkCellVariation 0.4 "assets/farm01.gltf" 0.9 true;
      mkCellVariation 0.25 "lib:cropGreen" 1.2 false ].

Record Vector2 := mkVector2 { v2x : R; v2y : R }.
Record Box2 := mkBox2 { bmin : Vector2; bmax : Vector2 }.

(** [Box2.setFromCenterAndSize(center, size)] of three.js. *)
Definition setFromCenterAndSize (center size : Vector2) : Box2 :=
  mkBox2 (mkVector2 (v2x center - v2x size * 0.5) (v2y center - v2y size * 0.5))
         (mkVector2 (v2x center + v2x size * 0.5) (v2y center + v2y size * 0.5)).

Definition field1_area : Box2 :=
  setFromCenterAndSize (mkVector2 0 10000) (mkVector2 80000 10000).
Definition field2_area : Box2 :=
  setFromCenterAndSize (mkVector2 (-10000) (-10000)) (mkVector2 10000 15000).

Definition box_center (b : Box2) : Vector2 :=
  mkVector2 ((v2x (bmin b) + v2x (bmax b)) * 0.5) ((v2y (bmin b) + v2y (bmax b)) * 0.5).

(** Modelled from the spec: the result of one placement, with its rotation
    about the vertical axis. *)
Record PlacedInstance := mkPlacedInstance {
  pi_model : string;
  pi_position : Vector3;
  pi_scale : Vector3;
  pi_rotation : R
}.

(** A cell: the indices of its tile and its indices inside the tile. *)
Record Cell := mkCell { tile_x : nat; tile_z : nat; cell_x : nat; cell_z : nat }.

(** Modelled from the spec: the body of [SceneryField] (sceneryField.ts) is
    not among the sources.  Every tile of the field and every cell of each
    tile is enumerated, tiles first. *)
Definition cells (cfg : SceneryFieldSettings) : list Cell :=
  flat_map (fun tx =>
    flat_map (fun tz =>
      flat_map (fun cx =>
        map (fun cz => mkCell tx tz cx cz) (seq 0 (cellsInTile cfg)))
        (seq 0 (cellsInTile cfg)))
      (seq 0 (tilesInField cfg)))
    (seq 0 (tilesInField cfg)).

(** Modelled from the spec: the walk over [cellVariations] in declaration
    order, accumulating probability mass; the first variation whose cumulative
    boundary exceeds [r] is selected, and none when [r] is past them all. *)
Fixpoint select_from (acc r : R) (vs : list CellVariation) : option CellVariation :=
  match vs with
  | [] => None
  | v :: rest =>
      let acc' := acc + probability v in
      if Rlt_dec r acc' then Some v else select_from acc' r rest
  end.

Definition select (r : R) (vs : list CellVariation) : option CellVariation :=
  select_from 0 r vs.

(** Modelled from the spec: [cellSize = tileLength / cellsInTile]. *)
Definition cellSize (cfg : SceneryFieldSettings) : R :=
  tileLength cfg / INR (cellsInTile cfg).

(** Modelled from the spec: the centre of a cell from its tile and sub-cell
    indices, the grid of tiles being centred on the area. *)
Definition axis_center (cfg : SceneryFieldSettings) (origin : R) (tile cell : nat) : R :=
  origin - INR (tilesInField cfg) * tileLength cfg / 2
  + INR tile * tileLength cfg + (INR cell + 0.5) * cellSize cfg.

Definition cell_center (area : Box2) (cfg : SceneryFieldSettings) (c : Cell) : Vector3 :=
  mkVector3 (axis_center cfg (v2x (box_center area)) (tile_x c) (cell_x c))
            0
            (axis_center cfg (v2y (box_center area)) (tile_z c) (cell_z c)).

(** A uniform draw [u] of [0, 1) carried to [lo, hi). *)
Definition uniform_between (lo hi u : R) : R := lo + u * (hi - lo).

(** Modelled from the spec: the offset of one axis, uniform over
    [-jitter * cellSize / 2, +jitter * cellSize / 2]. *)
Definition jitter_offset (cfg : SceneryFieldSettings) (v : CellVariation) (u : R) : R :=
  uniform_between (- (jitter v * cellSize cfg / 2)) (jitter v * cellSize cfg / 2) u.

Section Generate.

(** The i-th draw of the random stream. *)
Variable random : nat -> R.

(** Modelled from the spec: the rotation about the vertical axis, drawn in
    [0, 2 * PI) when [randomRotation] is set and the identity otherwise; with
    it the number of draws made. *)
Definition draw_rotation (v : CellVariation) (n : nat) : R * nat :=
  if randomRotation v
  then (uniform_between 0 (2 * PI) (random n), S n)
  else (0, n).

(** Modelled from the spec: steps 1 to 4 for one cell, from the number of
    draws made so far: the instance placed, if any, and the new number of
    draws. *)
Definition populate_cell (area : Box2) (cfg : SceneryFieldSettings) (c : Cell) (n : nat)
  : option PlacedInstance * nat :=
  let r := random n in
  match select r (cellVariations cfg) with
  | None => (None, S n)
  | Some v =>
      let center := cell_center area cfg c in
      let dx := jitter_offset cfg v (random (S n)) in
      let dz := jitter_offset cfg v (random (S (S n))) in
      let '(rot, n') := draw_rotation v (S (S (S n))) in
      (Some (mkPlacedInstance (model v)
               (mkVector3 (v3x center + dx) (v3y center) (v3z center + dz))
               (mkVector3 1 1 1)
               rot),
       n')
  end.

(** Modelled from the spec: the cells are populated one after the other, in
    the order of their enumeration, on one stream of draws. *)
Fixpoint populate_cells (area : Box2) (cfg : SceneryFieldSettings) (cs : list Cell) (n : nat)
  : list PlacedInstance * nat :=
  match cs with
  | [] => ([], n)
  | c :: rest =>
      let '(o, n1) := populate_cell area cfg c n in
      let '(out, n2) := populate_cells area cfg rest n1 in
      (match o with Some i => i :: out | None => out end, n2)
  end.

(** Modelled from the spec: a negative probability, a tile length that is not
    positive or an empty grid is a configuration error, reported before any
    cell is generated. *)
Definition negative_probability (v : CellVariation) : bool :=
  if Rlt_dec (probability v) 0 then true else false.

Definition valid_settings (cfg : SceneryFieldSettings) : bool :=
  negb (existsb negative_probability (cellVariations cfg))
  && (if Rlt_dec 0 (tileLength cfg) then true else false)
  && (1 <=? tilesInField cfg)%nat
  && (1 <=? cellsInTile cfg)%nat.

(** Modelled from the spec: [new SceneryField(models, area, settings)] gives
    the instances of the field and the number of draws made, or nothing on a
    configuration error. *)
Definition generate (area : Box2) (cfg : SceneryFieldSettings) (n : nat)
  : option (list PlacedInstance * nat) :=
  if valid_settings cfg then Some (populate_cells area cfg (cells cfg) n) else None.

End Generate.

End FieldPopulator.

(** * Properties of setupScene *)

(** The integers [lo, lo + 1, ..., lo + n - 1]. *)
Definition zrange (lo : Z) (n : nat) : list Z :=
  map (fun i => (lo + Z.of_nat i)%Z) (seq 0 n).

Lemma zrange_succ (lo : Z) (n : nat) :
  zrange lo (S n) = lo :: zrange (lo + 1) n.
Proof.
  unfold zrange. simpl. f_equal.
  - f_equal. lia.
  - rewrite <- seq_shift, map_map. apply map_ext. intros i. lia.
Qed.

Lemma in_zrange (lo x : Z) (n : nat) :
  In x (zrange lo n) <-> (lo <= x < lo + Z.of_nat n)%Z.
Proof.
  unfold zrange. rewrite in_map_iff. split.
  - intros [i [<- Hi]]. apply in_seq in Hi. lia.
  - intros H. exists (Z.to_nat (x - lo)). split; [lia|].
    apply in_seq. lia.
Qed.

(** A loop whose body only appends to the scene appends the bodies' entities
    in the order of the iterations. *)
Lemma for_from_appends (body : Z -> M unit) (g : Z -> list Entity) :
  (forall x w, body x w = Returned tt (mkWorld (scene w ++ g x) (draws w))) ->
  forall fuel x w,
    for_from fuel x body w
    = Returned tt (mkWorld (scene w ++ flat_map g (zrange x fuel)) (draws w)).
Proof.
  intros Hbody fuel. induction fuel as [|fuel IH]; intros x w.
  - simpl. unfold ret. rewrite app_nil_r. now destruct w.
  - rewrite zrange_succ. simpl. unfold bind. rewrite Hbody, IH. simpl.
    now rewrite app_assoc.
Qed.

Lemma flip_odd (x : Z) : flip x = if Z.odd (Z.abs x) then -1 else 1.
Proof.
  unfold flip. rewrite Z.rem_mod_nonneg by lia. rewrite Zmod_odd.
  now destruct (Z.odd (Z.abs x)).
Qed.

(** The grid coordinates in the order the two loops visit them. *)
Definition grid : list (Z * Z) := list_prod (zrange (-2) 5) (zrange (-2) 5).

Lemma in_grid (x z : Z) :
  In (x, z) grid <-> (-2 <= x <= 2)%Z /\ (-2 <= z <= 2)%Z.
Proof.
  unfold grid. rewrite in_prod_iff, !in_zrange. lia.
Qed.

Lemma NoDup_grid : NoDup grid.
Proof.
  unfold grid. cbv [zrange seq map list_prod app Z.add Z.of_nat Pos.of_succ_nat
                    Pos.succ Z.pos_sub Pos.pred_double Z.succ_double Z.pred_double Z.double].
  repeat (constructor;
          [ simpl; intros H;
            repeat (destruct H as [H|H]; [discriminate H|]); exact H | ]).
  constructor.
Qed.

Section SetupSceneFacts.

Variable TERRAIN_MODEL_SIZE : R.
Variable TERRAIN_SCALE : R.

Lemma tiling_loop_appends (w : World) :
  tiling_loop TERRAIN_MODEL_SIZE TERRAIN_SCALE w
  = Returned tt
      (mkWorld (scene w ++ map (fun c => make_tile TERRAIN_MODEL_SIZE TERRAIN_SCALE (fst c) (snd c)) grid)
               (draws w)).
Proof.
  unfold tiling_loop, for_incl.
  rewrite for_from_appends
    with (g := fun x => flat_map (fun z => [make_tile TERRAIN_MODEL_SIZE TERRAIN_SCALE x z])
                                 (zrange (-2) 5)).
  - reflexivity.
  - intros x w0. rewrite for_from_appends with (g := fun z => [make_tile TERRAIN_MODEL_SIZE TERRAIN_SCALE x z]).
    + reflexivity.
    + intros z w1. reflexivity.
Qed.

(** C9: the tiling loop adds exactly 25 map tiles, one for each integer grid
    coordinate (x, z) between -2 and 2; the tile of (x, z) is placed at
    (x * TERRAIN_MODEL_SIZE * TERRAIN_SCALE, z * TERRAIN_MODEL_SIZE *
    TERRAIN_SCALE), and its X scale (Z scale) is -TERRAIN_SCALE, hence
    negative, exactly when |x| (|z|) is odd, and +TERRAIN_SCALE otherwise. *)
Theorem tiling_loop_grid (w : World) (Hscale : 0 < TERRAIN_SCALE) :
  exists tiles,
    tiling_loop TERRAIN_MODEL_SIZE TERRAIN_SCALE w
    = Returned tt (mkWorld (scene w ++ tiles) (draws w))
    /\ tiles = map (fun c => make_tile TERRAIN_MODEL_SIZE TERRAIN_SCALE (fst c) (snd c)) grid
    /\ List.length tiles = 25%nat
    /\ NoDup grid
    /\ (forall x z, In (x, z) grid <-> (-2 <= x <= 2)%Z /\ (-2 <= z <= 2)%Z)
    /\ (forall x z,
         emodel (make_tile TERRAIN_MODEL_SIZE TERRAIN_SCALE x z) = "assets/map.gltf"%string
         /\ v3x (position (make_tile TERRAIN_MODEL_SIZE TERRAIN_SCALE x z))
            = IZR x * TERRAIN_MODEL_SIZE * TERRAIN_SCALE
         /\ v3z (position (make_tile TERRAIN_MODEL_SIZE TERRAIN_SCALE x z))
            = IZR z * TERRAIN_MODEL_SIZE * TERRAIN_SCALE
         /\ v3x (scale (make_tile TERRAIN_MODEL_SIZE TERRAIN_SCALE x z))
            = (if Z.odd (Z.abs x) then - TERRAIN_SCALE else TERRAIN_SCALE)
         /\ v3z (scale (make_tile TERRAIN_MODEL_SIZE TERRAIN_SCALE x z))
            = (if Z.odd (Z.abs z) then - TERRAIN_SCALE else TERRAIN_SCALE)
         /\ (v3x (scale (make_tile TERRAIN_MODEL_SIZE TERRAIN_SCALE x z)) < 0
             <-> Z.odd (Z.abs x) = true)
         /\ (v3z (scale (make_tile TERRAIN_MODEL_SIZE TERRAIN_SCALE x z)) < 0
             <-> Z.odd (Z.abs z) = true)).
Proof.
  eexists. split; [apply tiling_loop_appends|].
  split; [reflexivity|]. split; [reflexivity|].
  split; [apply NoDup_grid|]. split; [apply in_grid|].
  intros x z. cbn [make_tile new_entity with_position with_scale assign_x assign_z
                   emodel position scale v3x v3y v3z].
  rewrite !flip_odd.
  destruct (Z.odd (Z.abs x)), (Z.odd (Z.abs z));
    repeat split; intros; try reflexivity; try discriminate; lra.
Qed.

End SetupSceneFacts.

Lemma tiling_loop_grid_witness :
  0 < 100 /\
  exists tiles,
    tiling_loop 100 100 (mkWorld [] 0) = Returned tt (mkWorld ([] ++ tiles) 0)
    /\ List.length tiles = 25%nat.
Proof.
  split; [lra|].
  destruct (tiling_loop_grid 100 100 (mkWorld [] 0)) as [tiles [H [_ [Hlen _]]]]; [lra|].
  exists tiles. split; [exact H | exact Hlen].
Defined.

(** ** Scatter passes *)

(** Everything a computation did to the scene is to append entities that
    satisfy [P]. *)
Definition appended {A} (P : Entity -> Prop) (w : World) (o : Outcome A) : Prop :=
  exists added, scene (world_of o) = scene w ++ added /\ Forall P added.

Lemma appended_nothing {A} (P : Entity -> Prop) (w : World) (o : Outcome A) :
  scene (world_of o) = scene w -> appended P w o.
Proof.
  intros H. exists []. rewrite app_nil_r. split; [exact H | constructor].
Qed.

Lemma appended_bind {A B} (P : Entity -> Prop) (m : M A) (k : A -> M B) (w : World) :
  appended P w (m w) ->
  (forall a w', appended P w' (k a w')) ->
  appended P w (bind m k w).
Proof.
  intros [l1 [H1 F1]] Hk. unfold bind.
  destruct (m w) as [a w1|e w1|w1]; simpl in *.
  - destruct (Hk a w1) as [l2 [H2 F2]]. exists (l1 ++ l2).
    rewrite H2, H1, app_assoc. split; [reflexivity | now apply Forall_app].
  - exists l1. now split.
  - exists l1. now split.
Qed.

Lemma appended_for_count (P : Entity -> Prop) (body : M unit) :
  (forall w, appended P w (body w)) ->
  forall n w, appended P w (for_count n body w).
Proof.
  intros Hbody n. induction n as [|n IH]; intros w; simpl.
  - now apply appended_nothing.
  - apply appended_bind; [apply Hbody | intros _ w'; apply IH].
Qed.

(** A loop whose body always returns after appending one entity returns
    after appending as many entities as it has iterations. *)
Lemma for_count_returns (P : Entity -> Prop) (body : M unit) :
  (forall w, exists e n', body w = Returned tt (mkWorld (scene w ++ [e]) n') /\ P e) ->
  forall n w, exists added n',
    for_count n body w = Returned tt (mkWorld (scene w ++ added) n')
    /\ List.length added = n /\ Forall P added.
Proof.
  intros Hbody n. induction n as [|n IH]; intros w; simpl.
  - exists [], (draws w). unfold ret. rewrite app_nil_r. destruct w. repeat split. constructor.
  - destruct (Hbody w) as [e [n1 [He Pe]]].
    destruct (IH (mkWorld (scene w ++ [e]) n1)) as [l [n2 [Hl [Hlen Fl]]]].
    exists (e :: l), n2. unfold bind. rewrite He, Hl. simpl.
    rewrite <- app_assoc. simpl. repeat split; [now rewrite Hlen | now constructor].
Qed.

Section ScatterFacts.

Variable UP : Vector3.
Variable random : nat -> R.
Variable randomPosOver : Mesh -> Vector3 -> R -> nat -> option (Vector3 * nat).

(** The transform the claims give a scattered instance, from the position
    the sampler wrote and the number [n] of draws made before the scale is
    drawn: X and Z scale [0.8 + r / 5], Y scale [0.5 + r / 2], rotation
    [PI / 4 + (r - 0.5) * PI / 4] about [UP], each [r] the next draw. *)
Definition scattered (model : string) (p : Vector3) (n : nat) : Entity :=
  mkEntity StaticSceneryEntity model p
    (mkVector3 (0.8 + random n / 5.0) (0.5 + random (S n) / 2.0)
               (0.8 + random (S (S n)) / 5.0))
    (setFromAxisAngle UP (PI / 4 + (random (S (S (S n))) - 0.5) * PI / 4)).

(** The sampler returns on every call for the mesh and the spread. *)
Definition covers (mesh : Mesh) (spread : R) : Prop :=
  forall p n, randomPosOver mesh p spread n <> None.

Lemma place_hill_eq (grass : Mesh) (w : World) :
  place_hill UP random randomPosOver grass w
  = match randomPosOver grass (mkVector3 0 0 0) 20000 (draws w) with
    | Some (p, n) =>
        Returned tt (mkWorld (scene w ++ [scattered "lib:hill" p n]) (S (S (S (S n)))))
    | None => NoReturn w
    end.
Proof.
  unfold place_hill, bind, call_randomPosOver. simpl.
  destruct (randomPosOver grass (mkVector3 0 0 0) 20000 (draws w)) as [[p n]|];
    reflexivity.
Qed.

Lemma place_mountain_eq (bare : Mesh) (w : World) :
  place_mountain UP random randomPosOver bare w
  = match randomPosOver bare (mkVector3 0 0 0) 20000 (draws w) with
    | Some (p, n) =>
        Returned tt (mkWorld (scene w ++ [scattered "lib:mountain" p n]) (S (S (S (S n)))))
    | None => NoReturn w
    end.
Proof.
  unfold place_mountain, bind, call_randomPosOver. simpl.
  destruct (randomPosOver bare (mkVector3 0 0 0) 20000 (draws w)) as [[p n]|];
    reflexivity.
Qed.

(** An entity the sampler placed on [mesh] with spread 20000 and that then
    received the scattered transform. *)
Definition sampled_on (mesh : Mesh) (model : string) (e : Entity) : Prop :=
  exists n0 p n,
    randomPosOver mesh (mkVector3 0 0 0) 20000 n0 = Some (p, n)
    /\ e = scattered model p n.

Lemma place_hill_returns (grass : Mesh) :
  covers grass 20000 ->
  forall w, exists e n',
    place_hill UP random randomPosOver grass w = Returned tt (mkWorld (scene w ++ [e]) n')
    /\ sampled_on grass "lib:hill" e.
Proof.
  intros Hc w. rewrite place_hill_eq.
  destruct (randomPosOver grass (mkVector3 0 0 0) 20000 (draws w)) as [[p n]|] eqn:E.
  - eexists _, _. split; [reflexivity|]. now exists (draws w), p, n.
  - now destruct (Hc _ _ E).
Qed.

Lemma place_mountain_returns (bare : Mesh) :
  covers bare 20000 ->
  forall w, exists e n',
    place_mountain UP random randomPosOver bare w
    = Returned tt (mkWorld (scene w ++ [e]) n')
    /\ sampled_on bare "lib:mountain" e.
Proof.
  intros Hc w. rewrite place_mountain_eq.
  destruct (randomPosOver bare (mkVector3 0 0 0) 20000 (draws w)) as [[p n]|] eqn:E.
  - eexists _, _. split; [reflexivity|]. now exists (draws w), p, n.
  - now destruct (Hc _ _ E).
Qed.

Lemma hill_pass_eq (model : Model) (l : Lod) (ls : list Lod) (w : World) :
  lod model = l :: ls ->
  hill_pass UP random randomPosOver model w
  = bind (assertIsDefined (find_flat TERRAIN_GRASS l))
         (fun grass => for_count 30 (place_hill UP random randomPosOver grass)) w.
Proof. intros H. unfold hill_pass, lod0. now rewrite H. Qed.

Lemma mountain_pass_eq (model : Model) (l : Lod) (ls : list Lod) (w : World) :
  lod model = l :: ls ->
  mountain_pass UP random randomPosOver model w
  = bind (assertIsDefined (find_flat TERRAIN_BARE l))
         (fun bare => for_count 20 (place_mountain UP random randomPosOver bare)) w.
Proof. intros H. unfold mountain_pass, lod0. now rewrite H. Qed.

(** The scale ranges of the scattered types. *)
Definition scale_in_range (e : Entity) : Prop :=
  0.8 <= v3x (scale e) <= 1.0
  /\ 0.5 <= v3y (scale e) <= 1.0
  /\ 0.8 <= v3z (scale e) <= 1.0.

(** A rotation about [UP] by 45 degrees plus a jitter of at most 22.5
    degrees either way. *)
Definition rotation_in_range (e : Entity) : Prop :=
  exists jit,
    - (PI / 8) <= jit <= PI / 8
    /\ quaternion e = setFromAxisAngle UP (PI / 4 + jit)
    /\ PI / 8 <= PI / 4 + jit <= 3 * PI / 8.

Definition hill_or_mountain (e : Entity) : Prop :=
  eclass e = StaticSceneryEntity
  /\ (emodel e = "lib:hill"%string \/ emodel e = "lib:mountain"%string).

Hypothesis random_range : forall n, 0 <= random n < 1.

Lemma scattered_scale (model : string) (p : Vector3) (n : nat) :
  scale_in_range (scattered model p n).
Proof.
  unfold scale_in_range, scattered. simpl.
  pose proof (random_range n). pose proof (random_range (S n)).
  pose proof (random_range (S (S n))). lra.
Qed.

Lemma scattered_rotation (model : string) (p : Vector3) (n : nat) :
  rotation_in_range (scattered model p n).
Proof.
  exists ((random (S (S (S n))) - 0.5) * PI / 4).
  pose proof (random_range (S (S (S n)))). pose proof PI_RGT_0.
  repeat split; try reflexivity; nra.
Qed.

Lemma place_hill_rotation (grass : Mesh) (w : World) :
  appended (fun e => hill_or_mountain e /\ rotation_in_range e) w
           (place_hill UP random randomPosOver grass w).
Proof.
  rewrite place_hill_eq.
  destruct (randomPosOver grass (mkVector3 0 0 0) 20000 (draws w)) as [[p n]|].
  - eexists. split; [reflexivity|]. constructor; [|constructor].
    split; [split; [reflexivity | now left] | apply scattered_rotation].
  - now apply appended_nothing.
Qed.

Lemma place_mountain_rotation (bare : Mesh) (w : World) :
  appended (fun e => hill_or_mountain e /\ rotation_in_range e) w
           (place_mountain UP random randomPosOver bare w).
Proof.
  rewrite place_mountain_eq.
  destruct (randomPosOver bare (mkVector3 0 0 0) 20000 (draws w)) as [[p n]|].
  - eexists. split; [reflexivity|]. constructor; [|constructor].
    split; [split; [reflexivity | now right] | apply scattered_rotation].
  - now apply appended_nothing.
Qed.

Lemma lod0_appended (P : Entity -> Prop) (model : Model) (w : World) :
  appended P w (lod0 model w).
Proof. apply appended_nothing. unfold lod0. now destruct (lod model). Qed.

Lemma assertIsDefined_appended {A} (P : Entity -> Prop) (v : option A) (w : World) :
  appended P w (assertIsDefined v w).
Proof. apply appended_nothing. now destruct v. Qed.

(** C4: thirty hills asked of a grass surface that answers every query of
    spread 20000 are all placed, each with Y scale in [0.5, 1.0] and X and Z
    scale in [0.8, 1.0]. *)
Theorem hill_pass_thirty (model : Model) (l : Lod) (ls : list Lod) (grass : Mesh)
    (w : World) :
  lod model = l :: ls ->
  find_flat TERRAIN_GRASS l = Some grass ->
  covers grass 20000 ->
  exists hills n',
    hill_pass UP random randomPosOver model w
    = Returned tt (mkWorld (scene w ++ hills) n')
    /\ List.length hills = 30%nat
    /\ Forall (fun e => emodel e = "lib:hill"%string /\ scale_in_range e) hills.
Proof.
  intros Hlod Hgrass Hc. rewrite (hill_pass_eq _ _ _ _ Hlod), Hgrass.
  unfold bind, assertIsDefined, ret.
  apply for_count_returns. intros w0.
  destruct (place_hill_returns grass Hc w0) as [e [n' [He [n0 [p [n [_ ->]]]]]]].
  exists (scattered "lib:hill" p n), n'. split; [exact He|].
  split; [reflexivity | apply scattered_scale].
Qed.

(** C8: every hill and every mountain the callback adds is rotated about
    the vertical axis by 45 degrees plus a jitter of at most 22.5 degrees
    either way, so by an angle between PI / 8 and 3 * PI / 8. *)
Theorem scatter_rotation_in_range (model : Model) (w : World) :
  appended (fun e => hill_or_mountain e /\ rotation_in_range e) w
           (on_map_loaded UP random randomPosOver model w).
Proof.
  unfold on_map_loaded, hill_pass, mountain_pass.
  apply appended_bind.
  - apply appended_bind; [apply lod0_appended|]. intros l w1.
    apply appended_bind; [apply assertIsDefined_appended|]. intros grass w2.
    apply appended_for_count. apply place_hill_rotation.
  - intros _ w1.
    apply appended_bind; [apply lod0_appended|]. intros l w2.
    apply appended_bind; [apply assertIsDefined_appended|]. intros bare w3.
    apply appended_for_count. apply place_mountain_rotation.
Qed.

(** C6: when the lookup of a surface tag finds no mesh, the pass throws a
    precondition violation in the state it started from: no draw is made and
    no instance is added for it, and the callback ends with that error. *)
Theorem missing_tag_throws (model : Model) (l : Lod) (ls : list Lod) (w : World) :
  lod model = l :: ls ->
  (find_flat TERRAIN_GRASS l = None ->
     hill_pass UP random randomPosOver model w = Thrown PreconditionViolation w
     /\ on_map_loaded UP random randomPosOver model w = Thrown PreconditionViolation w)
  /\ (find_flat TERRAIN_BARE l = None ->
       mountain_pass UP random randomPosOver model w = Thrown PreconditionViolation w
       /\ forall w',
            hill_pass UP random randomPosOver model w = Returned tt w' ->
            on_map_loaded UP random randomPosOver model w
            = Thrown PreconditionViolation w').
Proof.
  intros Hlod. split; intros Hnone.
  - assert (H : hill_pass UP random randomPosOver model w = Thrown PreconditionViolation w).
    { rewrite (hill_pass_eq _ _ _ _ Hlod), Hnone. reflexivity. }
    split; [exact H|]. unfold on_map_loaded, bind at 1. now rewrite H.
  - split.
    + rewrite (mountain_pass_eq _ _ _ _ Hlod), Hnone. reflexivity.
    + intros w' H. unfold on_map_loaded, bind at 1. rewrite H.
      rewrite (mountain_pass_eq _ _ _ _ Hlod), Hnone. reflexivity.
Qed.

(** C10: twenty mountains are scattered onto the TERRAIN_BARE mesh with
    spread 20000, each with X and Z scale 0.8 + r / 5, Y scale 0.5 + r / 2 and
    rotation PI / 4 + (r - 0.5) * PI / 4; the mountain body, which assigns the
    scale one component at a time, and the hill body, which calls scale.set,
    compute the same position, scale and rotation from the same draws. *)
Theorem mountain_pass_twenty (model : Model) (l : Lod) (ls : list Lod) (bare : Mesh)
    (w : World) :
  lod model = l :: ls ->
  find_flat TERRAIN_BARE l = Some bare ->
  covers bare 20000 ->
  (exists mountains n',
     mountain_pass UP random randomPosOver model w
     = Returned tt (mkWorld (scene w ++ mountains) n')
     /\ List.length mountains = 20%nat
     /\ Forall (sampled_on bare "lib:mountain") mountains)
  /\ (forall mesh w0,
       match place_hill UP random randomPosOver mesh w0,
             place_mountain UP random randomPosOver mesh w0 with
       | Returned _ wh, Returned _ wm =>
           exists eh em,
             scene wh = scene w0 ++ [eh] /\ scene wm = scene w0 ++ [em]
             /\ position eh = position em
             /\ scale eh = scale em
             /\ quaternion eh = quaternion em
             /\ draws wh = draws wm
       | NoReturn wh, NoReturn wm => wh = wm
       | _, _ => False
       end).
Proof.
  intros Hlod Hbare Hc. split.
  - rewrite (mountain_pass_eq _ _ _ _ Hlod), Hbare.
    unfold bind, assertIsDefined, ret.
    apply for_count_returns. apply place_mountain_returns, Hc.
  - intros mesh w0. rewrite place_hill_eq, place_mountain_eq.
    destruct (randomPosOver mesh (mkVector3 0 0 0) 20000 (draws w0)) as [[p n]|].
    + eexists _, _. repeat split; reflexivity.
    + reflexivity.
Qed.

End ScatterFacts.

(** ** Concrete instances *)

Definition example_UP : Vector3 := mkVector3 0 1 0.

Definition example_random : nat -> R := fun _ => 0.5.

Definition example_sampler : Mesh -> Vector3 -> R -> nat -> option (Vector3 * nat) :=
  fun _ _ spread n =>
    Some (mkVector3 ((example_random n - 0.5) * spread) 0
                    ((example_random (S n) - 0.5) * spread),
          S (S n)).

Definition example_grass : Mesh := mkMesh TERRAIN_GRASS 0.
Definition example_bare : Mesh := mkMesh TERRAIN_BARE 1.

Definition example_lod : Lod := mkLod [mkMesh TERRAIN_WATER 2; example_grass; example_bare].

Definition example_model : Model := mkModel [example_lod].

(** A terrain without grass and without bare ground. *)
Definition example_water_lod : Lod := mkLod [mkMesh TERRAIN_WATER 2].
Definition example_water_model : Model := mkModel [example_water_lod].

Lemma example_random_range : forall n, 0 <= example_random n < 1.
Proof. intros n. unfold example_random. lra. Qed.

Lemma hill_pass_thirty_witness :
  exists hills n',
    hill_pass example_UP example_random example_sampler example_model (mkWorld [] 0)
    = Returned tt (mkWorld ([] ++ hills) n')
    /\ List.length hills = 30%nat
    /\ Forall (fun e => emodel e = "lib:hill"%string /\ scale_in_range e) hills.
Proof.
  apply (hill_pass_thirty example_UP example_random example_sampler example_random_range
           example_model example_lod [] example_grass (mkWorld [] 0)).
  - reflexivity.
  - reflexivity.
  - intros p n. discriminate.
Defined.

Lemma scatter_rotation_in_range_witness :
  appended (fun e => hill_or_mountain e /\ rotation_in_range example_UP e) (mkWorld [] 0)
           (on_map_loaded example_UP example_random example_sampler example_model
                          (mkWorld [] 0)).
Proof.
  apply (scatter_rotation_in_range example_UP example_random example_sampler
           example_random_range).
Defined.

Lemma missing_tag_throws_witness :
  hill_pass example_UP example_random example_sampler example_water_model (mkWorld [] 0)
  = Thrown PreconditionViolation (mkWorld [] 0)
  /\ mountain_pass example_UP example_random example_sampler example_water_model
                   (mkWorld [] 0)
     = Thrown PreconditionViolation (mkWorld [] 0).
Proof.
  destruct (missing_tag_throws example_UP example_random example_sampler
              example_water_model example_water_lod [] (mkWorld [] 0) eq_refl)
    as [Hg Hb].
  split; [apply (proj1 (Hg eq_refl)) | apply (proj1 (Hb eq_refl))].
Defined.

Lemma mountain_pass_twenty_witness :
  exists mountains n',
    mountain_pass example_UP example_random example_sampler example_model (mkWorld [] 0)
    = Returned tt (mkWorld ([] ++ mountains) n')
    /\ List.length mountains = 20%nat.
Proof.
  destruct (mountain_pass_twenty example_UP example_random example_sampler
              example_model example_lod [] example_bare (mkWorld [] 0))
    as [[ms [n' [H [Hlen _]]]] _].
  - reflexivity.
  - reflexivity.
  - intros p n. discriminate.
  - exists ms, n'. split; [exact H | exact Hlen].
Defined.

(** * Properties of the scenery fields *)

Module FieldPopulatorFacts.

Import FieldPopulator.

(** The probability mass of a list of variations. *)
Fixpoint mass (vs : list CellVariation) : R :=
  match vs with
  | [] => 0
  | v :: rest => probability v + mass rest
  end.

(** The lower boundary of the interval of variation [i]: the mass of the
    variations declared before it. *)
Definition mass_before (i : nat) (vs : list CellVariation) : R := mass (firstn i vs).

Definition nonnegative (vs : list CellVariation) : Prop :=
  Forall (fun v => 0 <= probability v) vs.

Lemma mass_nonneg (vs : list CellVariation) : nonnegative vs -> 0 <= mass vs.
Proof.
  induction 1 as [|v vs Hv _ IH]; simpl; lra.
Qed.

Lemma nonnegative_firstn (vs : list CellVariation) (i : nat) :
  nonnegative vs -> nonnegative (firstn i vs).
Proof.
  intros H. revert i. induction H as [|v vs Hv _ IH]; intros [|i]; simpl;
    try constructor; [assumption | apply IH].
Qed.

(** The walk started with [acc] already accumulated. *)
Lemma select_from_some (vs : list CellVariation) :
  forall acc r v,
    acc <= r ->
    select_from acc r vs = Some v ->
    exists i,
      nth_error vs i = Some v
      /\ acc + mass_before i vs <= r < acc + mass_before i vs + probability v
      /\ forall j, (j < i)%nat -> acc + mass_before (S j) vs <= r.
Proof.
  induction vs as [|v0 vs IH]; intros acc r v Hacc Hsel; simpl in Hsel.
  - discriminate.
  - destruct (Rlt_dec r (acc + probability v0)) as [Hlt|Hge].
    + injection Hsel as <-. exists 0%nat. unfold mass_before. simpl.
      repeat split; try lra. intros j Hj. lia.
    + apply Rnot_lt_le in Hge.
      destruct (IH _ _ _ Hge Hsel) as [i [Hnth [Hin Hfirst]]].
      exists (S i). unfold mass_before in *. simpl. repeat split; try lra; try assumption.
      intros [|j] Hj; simpl.
      * lra.
      * assert (Hj' : (j < i)%nat) by lia. specialize (Hfirst j Hj'). simpl in Hfirst. lra.
Qed.

Lemma select_from_interval (vs : list CellVariation) :
  forall acc r i v,
    nonnegative vs ->
    nth_error vs i = Some v ->
    acc + mass_before i vs <= r < acc + mass_before i vs + probability v ->
    select_from acc r vs = Some v.
Proof.
  induction vs as [|v0 vs IH]; intros acc r i v Hnn Hnth Hin.
  - now destruct i.
  - inversion Hnn as [|? ? Hv0 Hvs]; subst. simpl.
    destruct i as [|i]; unfold mass_before in *; simpl in *.
    + injection Hnth as ->. destruct (Rlt_dec r (acc + probability v)); [reflexivity | lra].
    + pose proof (mass_nonneg _ (nonnegative_firstn vs i Hvs)).
      destruct (Rlt_dec r (acc + probability v0)); [lra|].
      apply (IH _ _ i); [assumption | assumption | lra].
Qed.

Lemma select_from_past (vs : list CellVariation) :
  forall acc r,
    nonnegative vs ->
    acc + mass vs <= r ->
    select_from acc r vs = None.
Proof.
  induction vs as [|v0 vs IH]; intros acc r Hnn Hr; simpl in *.
  - reflexivity.
  - inversion Hnn as [|? ? Hv0 Hvs]; subst.
    pose proof (mass_nonneg vs Hvs).
    destruct (Rlt_dec r (acc + probability v0)); [lra|].
    apply IH; [assumption | lra].
Qed.

Lemma populate_cell_selected (random : nat -> R) (area : Box2)
    (cfg : SceneryFieldSettings) (c : Cell) (n : nat) (v : CellVariation) :
  select (random n) (cellVariations cfg) = Some v ->
  populate_cell random area cfg c n
  = (Some (mkPlacedInstance (model v)
             (mkVector3
                (v3x (cell_center area cfg c) + jitter_offset cfg v (random (S n)))
                (v3y (cell_center area cfg c))
                (v3z (cell_center area cfg c) + jitter_offset cfg v (random (S (S n)))))
             (mkVector3 1 1 1)
             (fst (draw_rotation random v (S (S (S n)))))),
     snd (draw_rotation random v (S (S (S n))))).
Proof.
  intros H. unfold populate_cell. rewrite H.
  now destruct (draw_rotation random v (S (S (S n)))).
Qed.

Lemma populate_cell_empty (random : nat -> R) (area : Box2)
    (cfg : SceneryFieldSettings) (c : Cell) (n : nat) :
  select (random n) (cellVariations cfg) = None ->
  populate_cell random area cfg c n = (None, S n).
Proof. intros H. unfold populate_cell. now rewrite H. Qed.

(** C1: with [r] the draw of a cell, the variation selected is the one whose
    half-open interval [mass before it, mass before it + its probability)
    holds [r], which is the first in declaration order whose cumulative
    boundary exceeds [r]; when [r] is at or past the total mass the cell stays
    empty. *)
Theorem select_interval (random : nat -> R) (area : Box2) (cfg : SceneryFieldSettings)
    (c : Cell) (n : nat) :
  0 <= random n ->
  nonnegative (cellVariations cfg) ->
  (forall i v,
      nth_error (cellVariations cfg) i = Some v ->
      mass_before i (cellVariations cfg) <= random n
        < mass_before i (cellVariations cfg) + probability v ->
      select (random n) (cellVariations cfg) = Some v
      /\ exists inst n',
           populate_cell random area cfg c n = (Some inst, n')
           /\ pi_model inst = model v)
  /\ (forall v,
        select (random n) (cellVariations cfg) = Some v ->
        exists i,
          nth_error (cellVariations cfg) i = Some v
          /\ mass_before i (cellVariations cfg) <= random n
               < mass_before i (cellVariations cfg) + probability v
          /\ forall j, (j < i)%nat -> mass_before (S j) (cellVariations cfg) <= random n)
  /\ (mass (cellVariations cfg) <= random n ->
        select (random n) (cellVariations cfg) = None
        /\ populate_cell random area cfg c n = (None, S n)).
Proof.
  intros Hr Hnn. split; [|split].
  - intros i v Hnth Hin.
    assert (Hsel : select (random n) (cellVariations cfg) = Some v).
    { unfold select. apply (select_from_interval _ _ _ i); [assumption | assumption | lra]. }
    split; [exact Hsel|].
    eexists _, _. split; [apply populate_cell_selected, Hsel | reflexivity].
  - intros v Hsel. unfold select in Hsel.
    destruct (select_from_some _ _ _ _ Hr Hsel) as [i [Hnth [Hin Hfirst]]].
    exists i. split; [exact Hnth|]. split; [lra|].
    intros j Hj. specialize (Hfirst j Hj). lra.
  - intros Hpast.
    assert (Hsel : select (random n) (cellVariations cfg) = None).
    { unfold select. apply select_from_past; [assumption | lra]. }
    split; [exact Hsel | apply populate_cell_empty, Hsel].
Qed.

Lemma length_cells (cfg : SceneryFieldSettings) :
  List.length (cells cfg) = ((tilesInField cfg * cellsInTile cfg) ^ 2)%nat.
Proof.
  unfold cells.
  rewrite (flat_map_constant_length
             (c := (tilesInField cfg * (cellsInTile cfg * cellsInTile cfg))%nat)).
  - rewrite length_seq. simpl. nia.
  - intros tx _.
    rewrite (flat_map_constant_length (c := (cellsInTile cfg * cellsInTile cfg)%nat)).
    + now rewrite length_seq.
    + intros tz _. rewrite (flat_map_constant_length (c := cellsInTile cfg)).
      * now rewrite length_seq.
      * intros cx _. now rewrite length_map, length_seq.
Qed.

(** When every draw selects a variation, every cell yields an instance. *)
Lemma populate_cells_full (random : nat -> R) (area : Box2) (cfg : SceneryFieldSettings) :
  (forall k, select (random k) (cellVariations cfg) <> None) ->
  forall cs n, List.length (fst (populate_cells random area cfg cs n)) = List.length cs.
Proof.
  intros Hsel cs. induction cs as [|c cs IH]; intros n; simpl.
  - reflexivity.
  - destruct (select (random n) (cellVariations cfg)) as [v|] eqn:E.
    + rewrite (populate_cell_selected _ _ _ _ _ _ E).
      specialize (IH (snd (draw_rotation random v (S (S (S n)))))).
      destruct (populate_cells random area cfg cs _) as [out n2]. simpl in *.
      now rewrite IH.
    + now destruct (Hsel n).
Qed.

Lemma valid_settings_single (cfg : SceneryFieldSettings) (v : CellVariation) :
  0 < tileLength cfg ->
  (1 <= tilesInField cfg)%nat ->
  (1 <= cellsInTile cfg)%nat ->
  cellVariations cfg = [v] ->
  0 <= probability v ->
  valid_settings cfg = true.
Proof.
  intros Hl Ht Hc Hv Hp. unfold valid_settings.
  apply Nat.leb_le in Ht, Hc. rewrite Hv, Ht, Hc.
  unfold existsb, negative_probability.
  destruct (Rlt_dec (probability v) 0); [lra|].
  destruct (Rlt_dec 0 (tileLength cfg)); [reflexivity | lra].
Qed.

(** C2: a valid configuration enumerates exactly (tilesInField *
    cellsInTile) squared cells; with 7 tiles of 2 cells these are 196 cells,
    and a single variation of probability 1.0 then gives 196 instances. *)
Theorem cells_count (random : nat -> R) (area : Box2) (cfg : SceneryFieldSettings)
    (n : nat) :
  0 < tileLength cfg ->
  (1 <= tilesInField cfg)%nat ->
  (1 <= cellsInTile cfg)%nat ->
  (forall k, 0 <= random k < 1) ->
  List.length (cells cfg) = ((tilesInField cfg * cellsInTile cfg) ^ 2)%nat
  /\ (tilesInField cfg = 7%nat -> cellsInTile cfg = 2%nat ->
      List.length (cells cfg) = 196%nat
      /\ forall v,
           cellVariations cfg = [v] ->
           probability v = 1.0 ->
           exists out n',
             generate random area cfg n = Some (out, n')
             /\ List.length out = 196%nat).
Proof.
  intros Hl Ht Hc Hrange. split; [apply length_cells|].
  intros H7 H2.
  assert (Hcells : List.length (cells cfg) = 196%nat).
  { rewrite length_cells, H7, H2. reflexivity. }
  split; [exact Hcells|].
  intros v Hv Hp. unfold generate.
  rewrite (valid_settings_single cfg v) by (try assumption; lra).
  destruct (populate_cells random area cfg (cells cfg) n) as [out n'] eqn:E.
  exists out, n'. split; [reflexivity|].
  change out with (fst (out, n')). rewrite <- E, populate_cells_full; [exact Hcells|].
  intros k. rewrite Hv. unfold select. simpl.
  pose proof (Hrange k).
  destruct (Rlt_dec (random k) (0 + probability v)); [discriminate | lra].
Qed.

Lemma cellSize_pos (cfg : SceneryFieldSettings) :
  0 < tileLength cfg -> (1 <= cellsInTile cfg)%nat -> 0 < cellSize cfg.
Proof.
  intros Hl Hc. unfold cellSize. apply Rdiv_lt_0_compat; [assumption|].
  apply lt_0_INR. lia.
Qed.

Lemma jitter_offset_bound (cfg : SceneryFieldSettings) (v : CellVariation) (u : R) :
  0 < cellSize cfg -> 0 <= jitter v -> 0 <= u < 1 ->
  Rabs (jitter_offset cfg v u) <= jitter v * cellSize cfg / 2.
Proof.
  intros Hcs Hj Hu. unfold jitter_offset, uniform_between.
  set (h := jitter v * cellSize cfg / 2).
  assert (Hh : 0 <= h) by (unfold h; nra).
  apply Rabs_le. nra.
Qed.

(** C5: the instance of a cell lies, on each horizontal axis, within
    jitter * cellSize / 2 of the centre of the cell, with cellSize =
    tileLength / cellsInTile, whatever the jitter factor. *)
Theorem jitter_bound (random : nat -> R) (area : Box2) (cfg : SceneryFieldSettings)
    (c : Cell) (n : nat) (v : CellVariation) :
  0 < tileLength cfg ->
  (1 <= cellsInTile cfg)%nat ->
  0 <= jitter v ->
  (forall k, 0 <= random k < 1) ->
  select (random n) (cellVariations cfg) = Some v ->
  exists inst n',
    populate_cell random area cfg c n = (Some inst, n')
    /\ Rabs (v3x (pi_position inst) - v3x (cell_center area cfg c))
       <= jitter v * (tileLength cfg / INR (cellsInTile cfg)) / 2
    /\ Rabs (v3z (pi_position inst) - v3z (cell_center area cfg c))
       <= jitter v * (tileLength cfg / INR (cellsInTile cfg)) / 2.
Proof.
  intros Hl Hc Hj Hrange Hsel.
  eexists _, _. split; [apply populate_cell_selected, Hsel|].
  pose proof (cellSize_pos cfg Hl Hc) as Hcs.
  cbn [pi_position v3x v3y v3z]. fold (cellSize cfg).
  split;
    match goal with
    | |- Rabs (?a + ?b - ?a) <= _ => replace (a + b - a) with b by ring
    end;
    now apply jitter_offset_bound.
Qed.

(** *** The shipped settings with every draw equal to one half *)

Definition cropGreen : CellVariation := mkCellVariation 0.25 "lib:cropGreen" 1.2 false.

Lemma fieldOptions_nonnegative : nonnegative (cellVariations fieldOptions).
Proof. unfold nonnegative. simpl. repeat constructor; simpl; lra. Qed.

Lemma fieldOptions_tileLength : 0 < tileLength fieldOptions.
Proof. simpl. lra. Qed.

Lemma example_select_cropGreen (k : nat) :
  select (example_random k) (cellVariations fieldOptions) = Some cropGreen.
Proof.
  unfold select. apply (select_from_interval _ _ _ 1%nat).
  - apply fieldOptions_nonnegative.
  - reflexivity.
  - unfold mass_before, example_random. simpl. lra.
Qed.

Lemma select_interval_witness :
  select (example_random 0) (cellVariations fieldOptions) = Some cropGreen.
Proof.
  assert (H0 : 0 <= example_random 0) by (unfold example_random; lra).
  apply (proj1 (select_interval example_random field1_area fieldOptions
                  (mkCell 0 0 0 0) 0 H0 fieldOptions_nonnegative)
               1%nat cropGreen).
  - reflexivity.
  - unfold mass_before, example_random. simpl. lra.
Defined.

Lemma cells_count_witness :
  List.length (cells fieldOptions) = ((7 * 2) ^ 2)%nat
  /\ List.length (cells fieldOptions) = 196%nat.
Proof.
  destruct (cells_count example_random field1_area fieldOptions 0
              fieldOptions_tileLength (le_S _ _ (le_S _ _ (le_S _ _ (le_S _ _ (le_S _ _ (le_S _ _ (le_n 1)))))))
              (le_S _ _ (le_n 1)) example_random_range)
    as [Hsq H196].
  split; [exact Hsq | exact (proj1 (H196 eq_refl eq_refl))].
Defined.

Lemma jitter_bound_witness :
  exists inst n',
    populate_cell example_random field1_area fieldOptions (mkCell 0 0 0 0) 0
    = (Some inst, n')
    /\ Rabs (v3x (pi_position inst)
             - v3x (cell_center field1_area fieldOptions (mkCell 0 0 0 0)))
       <= 1.2 * (2500.0 / INR 2) / 2.
Proof.
  assert (Hj : 0 <= jitter cropGreen) by (simpl; lra).
  destruct (jitter_bound example_random field1_area fieldOptions (mkCell 0 0 0 0) 0
              cropGreen fieldOptions_tileLength (le_S _ _ (le_n 1)) Hj
              example_random_range (example_select_cropGreen 0))
    as [inst [n' [H [Hx _]]]].
  exists inst, n'. split; [exact H | exact Hx].
Defined.

End FieldPopulatorFacts.

(** * Further properties of setupScene *)

(** ** The tiling *)

Lemma odd_abs (x : Z) : Z.odd (Z.abs x) = Z.odd x.
Proof.
  destruct (Z.abs_eq_or_opp x) as [-> | ->]; [reflexivity | apply Z.odd_opp].
Qed.

Lemma flip_succ (x : Z) : flip (x + 1) = - flip x.
Proof.
  rewrite !flip_odd, !odd_abs. change (x + 1)%Z with (Z.succ x).
  rewrite Z.odd_succ, <- Z.negb_odd.
  destruct (Z.odd x); simpl; lra.
Qed.

Lemma flip_opp (x : Z) : flip (- x) = flip x.
Proof. unfold flip. now rewrite Z.abs_opp. Qed.

Section TilingExtras.

Variable TERRAIN_MODEL_SIZE : R.
Variable TERRAIN_SCALE : R.

(** X1: neighbouring tiles are mirror images of each other: one step along an
    axis negates the scale on that axis, for every integer coordinate; the
    pattern is symmetric about the origin, whose tile is not mirrored. *)
Theorem tile_mirror_alternates (x z : Z) :
  v3x (scale (make_tile TERRAIN_MODEL_SIZE TERRAIN_SCALE (x + 1) z))
  = - v3x (scale (make_tile TERRAIN_MODEL_SIZE TERRAIN_SCALE x z))
  /\ v3z (scale (make_tile TERRAIN_MODEL_SIZE TERRAIN_SCALE x (z + 1)))
     = - v3z (scale (make_tile TERRAIN_MODEL_SIZE TERRAIN_SCALE x z))
  /\ scale (make_tile TERRAIN_MODEL_SIZE TERRAIN_SCALE (- x) (- z))
     = scale (make_tile TERRAIN_MODEL_SIZE TERRAIN_SCALE x z)
  /\ scale (make_tile TERRAIN_MODEL_SIZE TERRAIN_SCALE 0 0)
     = mkVector3 TERRAIN_SCALE 1 TERRAIN_SCALE.
Proof.
  cbn [make_tile new_entity with_position with_scale assign_x assign_z
       scale v3x v3y v3z].
  rewrite !flip_succ, !flip_opp.
  split; [ring|]. split; [ring|]. split; [reflexivity|].
  unfold flip, assign_z, assign_x. simpl. f_equal; ring.
Qed.

(** X2: tiles of different grid coordinates never share a position, as long as
    the two constants are not zero; the 25 tiles of the loop therefore sit at
    25 different places, each a whole number of tile lengths from the origin
    on both axes and on the ground plane. *)
Theorem tiles_distinct_positions (Hsize : TERRAIN_MODEL_SIZE <> 0)
    (Hscale : TERRAIN_SCALE <> 0) :
  (forall x z x' z',
      position (make_tile TERRAIN_MODEL_SIZE TERRAIN_SCALE x z)
      = position (make_tile TERRAIN_MODEL_SIZE TERRAIN_SCALE x' z') ->
      x = x' /\ z = z')
  /\ NoDup (map (fun c => position (make_tile TERRAIN_MODEL_SIZE TERRAIN_SCALE
                                               (fst c) (snd c))) grid)
  /\ (forall x z,
        position (make_tile TERRAIN_MODEL_SIZE TERRAIN_SCALE (x + 1) z)
        = mkVector3
            (v3x (position (make_tile TERRAIN_MODEL_SIZE TERRAIN_SCALE x z))
             + TERRAIN_MODEL_SIZE * TERRAIN_SCALE)
            0
            (v3z (position (make_tile TERRAIN_MODEL_SIZE TERRAIN_SCALE x z)))).
Proof.
  assert (Hinj : forall x z x' z',
             position (make_tile TERRAIN_MODEL_SIZE TERRAIN_SCALE x z)
             = position (make_tile TERRAIN_MODEL_SIZE TERRAIN_SCALE x' z') ->
             x = x' /\ z = z').
  { intros x z x' z'.
    cbv [make_tile new_entity with_position with_scale assign_x assign_z
         position scale eclass emodel quaternion v3x v3y v3z].
    intros H. injection H as Hx Hz.
    split; apply eq_IZR;
      (apply (Rmult_eq_reg_r TERRAIN_MODEL_SIZE); [|exact Hsize]);
      (apply (Rmult_eq_reg_r TERRAIN_SCALE); [|exact Hscale]); assumption. }
  split; [exact Hinj|]. split.
  - apply NoDup_map_NoDup_ForallPairs; [|apply NoDup_grid].
    intros [x z] [x' z'] _ _ H. simpl in H.
    destruct (Hinj _ _ _ _ H) as [-> ->]. reflexivity.
  - intros x z.
    cbv [make_tile new_entity with_position with_scale assign_x assign_z
         position scale eclass emodel quaternion v3x v3y v3z].
    rewrite plus_IZR. f_equal. ring.
Qed.

End TilingExtras.

Lemma tiles_distinct_positions_witness :
  NoDup (map (fun c => position (make_tile 100 100 (fst c) (snd c))) grid).
Proof.
  assert (H : (100 : R) <> 0) by lra.
  exact (proj1 (proj2 (tiles_distinct_positions 100 100 H H))).
Defined.

(** ** The scatter callback *)

Lemma PaletteCategory_eqb_eq (a b : PaletteCategory) :
  PaletteCategory_eqb a b = true <-> a = b.
Proof. destruct a, b; simpl; split; intros H; try reflexivity; discriminate. Qed.

Lemma find_flat_first (tag : PaletteCategory) (l : Lod) (pre post : list Mesh) (g : Mesh) :
  flats l = pre ++ g :: post ->
  mesh_name g = tag ->
  (forall m, In m pre -> mesh_name m <> tag) ->
  find_flat tag l = Some g.
Proof.
  unfold find_flat. intros -> Hg Hpre.
  induction pre as [|m pre IH]; simpl.
  - apply PaletteCategory_eqb_eq in Hg. now rewrite Hg.
  - destruct (PaletteCategory_eqb (mesh_name m) tag) eqn:E.
    + apply PaletteCategory_eqb_eq in E. now destruct (Hpre m (or_introl eq_refl)).
    + apply IH. intros m' Hm'. apply Hpre. now right.
Qed.

Lemma find_flat_none (tag : PaletteCategory) (l : Lod) :
  find_flat tag l = None <-> forall m, In m (flats l) -> mesh_name m <> tag.
Proof.
  unfold find_flat. split.
  - intros H m Hm Hname. apply (find_none _ _ H) in Hm.
    apply PaletteCategory_eqb_eq in Hname. congruence.
  - intros H. induction (flats l) as [|m ms IH]; simpl; [reflexivity|].
    destruct (PaletteCategory_eqb (mesh_name m) tag) eqn:E.
    + apply PaletteCategory_eqb_eq in E. now destruct (H m (or_introl eq_refl)).
    + apply IH. intros m' Hm'. apply H. now right.
Qed.

(** A loop whose body always returns after a fixed number of draws returns
    after that number of draws for each iteration. *)
Lemma for_count_draws (d : nat) (body : M unit) :
  (forall w, exists sc, body w = Returned tt (mkWorld sc (draws w + d))) ->
  forall n w, exists sc, for_count n body w = Returned tt (mkWorld sc (draws w + n * d)).
Proof.
  intros Hbody n. induction n as [|n IH]; intros w; simpl.
  - exists (scene w). unfold ret. rewrite Nat.add_0_r. now destruct w.
  - destruct (Hbody w) as [sc1 H1].
    destruct (IH (mkWorld sc1 (draws w + d))) as [sc2 H2].
    exists sc2. unfold bind. rewrite H1, H2. simpl. f_equal. f_equal. lia.
Qed.

Section ScatterExtras.

Variable UP : Vector3.
Variable random : nat -> R.
Variable randomPosOver : Mesh -> Vector3 -> R -> nat -> option (Vector3 * nat).

Lemma place_hill_appended (P : Entity -> Prop) (grass : Mesh) (w : World) :
  (forall p n, P (scattered UP random "lib:hill" p n)) ->
  appended P w (place_hill UP random randomPosOver grass w).
Proof.
  intros HP. rewrite place_hill_eq.
  destruct (randomPosOver grass (mkVector3 0 0 0) 20000 (draws w)) as [[p n]|].
  - eexists. split; [reflexivity|]. constructor; [apply HP | constructor].
  - now apply appended_nothing.
Qed.

Lemma place_mountain_appended (P : Entity -> Prop) (bare : Mesh) (w : World) :
  (forall p n, P (scattered UP random "lib:mountain" p n)) ->
  appended P w (place_mountain UP random randomPosOver bare w).
Proof.
  intros HP. rewrite place_mountain_eq.
  destruct (randomPosOver bare (mkVector3 0 0 0) 20000 (draws w)) as [[p n]|].
  - eexists. split; [reflexivity|]. constructor; [apply HP | constructor].
  - now apply appended_nothing.
Qed.

(** What holds of every hill and of every mountain the two bodies can build
    holds of everything the callback adds, however it ends. *)
Lemma on_map_loaded_appended (P : Entity -> Prop) (model : Model) (w : World) :
  (forall p n, P (scattered UP random "lib:hill" p n)) ->
  (forall p n, P (scattered UP random "lib:mountain" p n)) ->
  appended P w (on_map_loaded UP random randomPosOver model w).
Proof.
  intros Hh Hm. unfold on_map_loaded, hill_pass, mountain_pass.
  apply appended_bind.
  - apply appended_bind; [apply lod0_appended|]. intros l w1.
    apply appended_bind; [apply assertIsDefined_appended|]. intros grass w2.
    apply appended_for_count. intros w3. now apply place_hill_appended.
  - intros _ w1.
    apply appended_bind; [apply lod0_appended|]. intros l w2.
    apply appended_bind; [apply assertIsDefined_appended|]. intros bare w3.
    apply appended_for_count. intros w4. now apply place_mountain_appended.
Qed.

Lemma hill_loop_sampled (grass : Mesh) :
  covers randomPosOver grass 20000 ->
  forall w, exists hills n',
    for_count 30 (place_hill UP random randomPosOver grass) w
    = Returned tt (mkWorld (scene w ++ hills) n')
    /\ List.length hills = 30%nat
    /\ Forall (sampled_on UP random randomPosOver grass "lib:hill") hills.
Proof.
  intros Hc w. apply for_count_returns. now apply place_hill_returns.
Qed.

Lemma mountain_loop_sampled (bare : Mesh) :
  covers randomPosOver bare 20000 ->
  forall w, exists mountains n',
    for_count 20 (place_mountain UP random randomPosOver bare) w
    = Returned tt (mkWorld (scene w ++ mountains) n')
    /\ List.length mountains = 20%nat
    /\ Forall (sampled_on UP random randomPosOver bare "lib:mountain") mountains.
Proof.
  intros Hc w. apply for_count_returns. now apply place_mountain_returns.
Qed.

(** X3: with both tags present and a sampler that answers on both meshes, the
    callback returns after appending fifty entities: the thirty hills first,
    each where the sampler put it on the grass mesh, then the twenty
    mountains, each where the sampler put it on the bare mesh. *)
Theorem callback_hills_then_mountains (model : Model) (l : Lod) (ls : list Lod)
    (grass bare : Mesh) (w : World) :
  lod model = l :: ls ->
  find_flat TERRAIN_GRASS l = Some grass ->
  find_flat TERRAIN_BARE l = Some bare ->
  covers randomPosOver grass 20000 ->
  covers randomPosOver bare 20000 ->
  exists hills mountains n',
    on_map_loaded UP random randomPosOver model w
    = Returned tt (mkWorld (scene w ++ hills ++ mountains) n')
    /\ List.length hills = 30%nat
    /\ List.length mountains = 20%nat
    /\ Forall (sampled_on UP random randomPosOver grass "lib:hill") hills
    /\ Forall (sampled_on UP random randomPosOver bare "lib:mountain") mountains.
Proof.
  intros Hlod Hgrass Hbare Hcg Hcb.
  destruct (hill_loop_sampled grass Hcg w) as [hills [n1 [Hh [Hlen1 Fh]]]].
  destruct (mountain_loop_sampled bare Hcb (mkWorld (scene w ++ hills) n1))
    as [mountains [n2 [Hm [Hlen2 Fm]]]].
  exists hills, mountains, n2.
  split; [|now repeat split].
  unfold on_map_loaded, bind at 1.
  rewrite (hill_pass_eq _ _ _ _ _ _ _ Hlod), Hgrass.
  unfold bind at 1, assertIsDefined at 1, ret. rewrite Hh.
  rewrite (mountain_pass_eq _ _ _ _ _ _ _ Hlod), Hbare.
  unfold bind, assertIsDefined, ret. rewrite Hm. simpl.
  now rewrite app_assoc.
Qed.

(** X4: when the bare tag is missing but the grass pass can run, the callback
    throws only after the thirty hills are in the scene, and they stay
    there: nothing is rolled back. *)
Theorem callback_keeps_hills_on_missing_bare (model : Model) (l : Lod) (ls : list Lod)
    (grass : Mesh) (w : World) :
  lod model = l :: ls ->
  find_flat TERRAIN_GRASS l = Some grass ->
  find_flat TERRAIN_BARE l = None ->
  covers randomPosOver grass 20000 ->
  exists hills n',
    on_map_loaded UP random randomPosOver model w
    = Thrown PreconditionViolation (mkWorld (scene w ++ hills) n')
    /\ List.length hills = 30%nat
    /\ Forall (sampled_on UP random randomPosOver grass "lib:hill") hills.
Proof.
  intros Hlod Hgrass Hbare Hcg.
  destruct (hill_loop_sampled grass Hcg w) as [hills [n1 [Hh [Hlen1 Fh]]]].
  exists hills, n1. split; [|now split].
  unfold on_map_loaded, bind at 1.
  rewrite (hill_pass_eq _ _ _ _ _ _ _ Hlod), Hgrass.
  unfold bind at 1, assertIsDefined at 1, ret. rewrite Hh.
  rewrite (mountain_pass_eq _ _ _ _ _ _ _ Hlod), Hbare.
  reflexivity.
Qed.

(** X5: a model without any level of detail makes the callback throw a
    TypeError at the first lookup, in the state it started from. *)
Theorem callback_without_lod (model : Model) (w : World) :
  lod model = [] ->
  on_map_loaded UP random randomPosOver model w = Thrown TypeError w.
Proof.
  intros H. unfold on_map_loaded, hill_pass, bind, lod0. now rewrite H.
Qed.

(** X6: the lookups take the first mesh of the level, in the order of [flats],
    that carries the tag, also when later meshes carry it too, and that is
    the mesh the loop scatters on; a lookup finds nothing exactly when no
    mesh of the level carries the tag. *)
Theorem passes_use_first_match (model : Model) (l : Lod) (ls : list Lod)
    (pre post : list Mesh) (g : Mesh) (tag : PaletteCategory) (w : World) :
  lod model = l :: ls ->
  flats l = pre ++ g :: post ->
  mesh_name g = tag ->
  (forall m, In m pre -> mesh_name m <> tag) ->
  find_flat tag l = Some g
  /\ (tag = TERRAIN_GRASS ->
      hill_pass UP random randomPosOver model w
      = for_count 30 (place_hill UP random randomPosOver g) w)
  /\ (tag = TERRAIN_BARE ->
      mountain_pass UP random randomPosOver model w
      = for_count 20 (place_mountain UP random randomPosOver g) w)
  /\ (forall tag', find_flat tag' l = None
                   <-> forall m, In m (flats l) -> mesh_name m <> tag').
Proof.
  intros Hlod Hflats Hg Hpre.
  pose proof (find_flat_first tag l pre post g Hflats Hg Hpre) as Hfind.
  split; [exact Hfind|]. split; [|split].
  - intros ->. rewrite (hill_pass_eq _ _ _ _ _ _ _ Hlod), Hfind. reflexivity.
  - intros ->. rewrite (mountain_pass_eq _ _ _ _ _ _ _ Hlod), Hfind. reflexivity.
  - intros tag'. apply find_flat_none.
Qed.

(** The sampler makes exactly [k] draws on every call for the mesh. *)
Definition exact_draws (mesh : Mesh) (k : nat) : Prop :=
  forall p n, exists q, randomPosOver mesh p 20000 n = Some (q, (n + k)%nat).

Lemma place_hill_draws (grass : Mesh) (k : nat) :
  exact_draws grass k ->
  forall w, exists sc,
    place_hill UP random randomPosOver grass w
    = Returned tt (mkWorld sc (draws w + (k + 4))).
Proof.
  intros Hk w. rewrite place_hill_eq.
  destruct (Hk (mkVector3 0 0 0) (draws w)) as [q ->].
  eexists. f_equal. f_equal. lia.
Qed.

Lemma place_mountain_draws (bare : Mesh) (k : nat) :
  exact_draws bare k ->
  forall w, exists sc,
    place_mountain UP random randomPosOver bare w
    = Returned tt (mkWorld sc (draws w + (k + 4))).
Proof.
  intros Hk w. rewrite place_mountain_eq.
  destruct (Hk (mkVector3 0 0 0) (draws w)) as [q ->].
  eexists. f_equal. f_equal. lia.
Qed.

(** X7: besides the draws of the sampler, every hill and every mountain costs
    exactly four calls of [Math.random]: with a sampler of [kg] draws on the
    grass mesh and [kb] on the bare mesh the callback makes
    [30 * (kg + 4) + 20 * (kb + 4)] calls. *)
Theorem callback_draw_count (model : Model) (l : Lod) (ls : list Lod)
    (grass bare : Mesh) (kg kb : nat) (w : World) :
  lod model = l :: ls ->
  find_flat TERRAIN_GRASS l = Some grass ->
  find_flat TERRAIN_BARE l = Some bare ->
  exact_draws grass kg ->
  exact_draws bare kb ->
  exists sc,
    on_map_loaded UP random randomPosOver model w
    = Returned tt (mkWorld sc (draws w + 30 * (kg + 4) + 20 * (kb + 4))).
Proof.
  intros Hlod Hgrass Hbare Hkg Hkb.
  destruct (for_count_draws (kg + 4) _ (place_hill_draws grass kg Hkg) 30 w) as [sc1 H1].
  destruct (for_count_draws (kb + 4) _ (place_mountain_draws bare kb Hkb) 20
              (mkWorld sc1 (draws w + 30 * (kg + 4)))) as [sc2 H2].
  exists sc2.
  unfold on_map_loaded, bind at 1.
  rewrite (hill_pass_eq _ _ _ _ _ _ _ Hlod), Hgrass.
  unfold bind at 1, assertIsDefined at 1, ret. rewrite H1.
  rewrite (mountain_pass_eq _ _ _ _ _ _ _ Hlod), Hbare.
  unfold bind, assertIsDefined, ret. rewrite H2. reflexivity.
Qed.

End ScatterExtras.

(** Everything a computation did to the scene is to append at most [k]
    entities. *)
Definition appended_at_most {A} (k : nat) (w : World) (o : Outcome A) : Prop :=
  exists added, scene (world_of o) = scene w ++ added /\ (List.length added <= k)%nat.

Lemma appended_at_most_bind {A B} (k1 k2 : nat) (m : M A) (k : A -> M B) (w : World) :
  appended_at_most k1 w (m w) ->
  (forall a w', appended_at_most k2 w' (k a w')) ->
  appended_at_most (k1 + k2) w (bind m k w).
Proof.
  intros [l1 [H1 L1]] Hk. unfold bind.
  destruct (m w) as [a w1|e w1|w1]; simpl in *.
  - destruct (Hk a w1) as [l2 [H2 L2]]. exists (l1 ++ l2).
    rewrite H2, H1, app_assoc, length_app. split; [reflexivity | lia].
  - exists l1. split; [assumption | lia].
  - exists l1. split; [assumption | lia].
Qed.

Lemma appended_at_most_for_count (body : M unit) :
  (forall w, appended_at_most 1 w (body w)) ->
  forall n w, appended_at_most n w (for_count n body w).
Proof.
  intros Hbody n. induction n as [|n IH]; intros w; simpl.
  - exists []. rewrite app_nil_r. split; [reflexivity | simpl; lia].
  - change (S n) with (1 + n)%nat.
    apply appended_at_most_bind; [apply Hbody | intros _ w'; apply IH].
Qed.

Lemma appended_at_most_unchanged {A} (w : World) (o : Outcome A) :
  scene (world_of o) = scene w -> appended_at_most 0 w o.
Proof. intros H. exists []. rewrite app_nil_r. split; [exact H | simpl; lia]. Qed.

Section ScatterBounds.

Variable UP : Vector3.
Variable random : nat -> R.
Variable randomPosOver : Mesh -> Vector3 -> R -> nat -> option (Vector3 * nat).

(** X8: however the callback ends, and whatever the sampler and the terrain
    model are, it leaves the entities that were in the scene in place and
    adds at most fifty after them. *)
Theorem callback_adds_at_most_fifty (model : Model) (w : World) :
  appended_at_most 50 w (on_map_loaded UP random randomPosOver model w).
Proof.
  unfold on_map_loaded, hill_pass, mountain_pass.
  change 50%nat with ((0 + (0 + 30)) + (0 + (0 + 20)))%nat.
  apply appended_at_most_bind.
  - apply appended_at_most_bind.
    + apply appended_at_most_unchanged. unfold lod0. now destruct (lod model).
    + intros l w1. apply appended_at_most_bind.
      * apply appended_at_most_unchanged. now destruct (find_flat TERRAIN_GRASS l).
      * intros grass w2. apply appended_at_most_for_count. intros w3.
        rewrite place_hill_eq.
        destruct (randomPosOver grass (mkVector3 0 0 0) 20000 (draws w3)) as [[p n]|].
        -- eexists. split; [reflexivity | simpl; lia].
        -- exists []. rewrite app_nil_r. split; [reflexivity | simpl; lia].
  - intros _ w1. apply appended_at_most_bind.
    + apply appended_at_most_unchanged. unfold lod0. now destruct (lod model).
    + intros l w2. apply appended_at_most_bind.
      * apply appended_at_most_unchanged. now destruct (find_flat TERRAIN_BARE l).
      * intros bare w3. apply appended_at_most_for_count. intros w4.
        rewrite place_mountain_eq.
        destruct (randomPosOver bare (mkVector3 0 0 0) 20000 (draws w4)) as [[p n]|].
        -- eexists. split; [reflexivity | simpl; lia].
        -- exists []. rewrite app_nil_r. split; [reflexivity | simpl; lia].
Qed.

(** The square of the length of a quaternion. *)
Definition lengthSq (q : Quaternion) : R :=
  qx q * qx q + qy q * qy q + qz q * qz q + qw q * qw q.

Lemma setFromAxisAngle_unit (axis : Vector3) (angle : R) :
  v3x axis * v3x axis + v3y axis * v3y axis + v3z axis * v3z axis = 1 ->
  lengthSq (setFromAxisAngle axis angle) = 1.
Proof.
  intros H. unfold lengthSq, setFromAxisAngle. simpl.
  pose proof (sin2_cos2 (angle / 2)) as Hsc. unfold Rsqr in Hsc.
  replace (v3x axis * sin (angle / 2) * (v3x axis * sin (angle / 2))
           + v3y axis * sin (angle / 2) * (v3y axis * sin (angle / 2))
           + v3z axis * sin (angle / 2) * (v3z axis * sin (angle / 2))
           + cos (angle / 2) * cos (angle / 2))
    with ((v3x axis * v3x axis + v3y axis * v3y axis + v3z axis * v3z axis)
          * (sin (angle / 2) * sin (angle / 2))
          + cos (angle / 2) * cos (angle / 2)) by ring.
  rewrite H. lra.
Qed.

(** X9: when [UP] has length one, every hill and every mountain the callback
    adds carries a rotation of length one, however the callback ends. *)
Theorem scatter_unit_quaternion (model : Model) (w : World) :
  v3x UP * v3x UP + v3y UP * v3y UP + v3z UP * v3z UP = 1 ->
  appended (fun e => lengthSq (quaternion e) = 1) w
           (on_map_loaded UP random randomPosOver model w).
Proof.
  intros H. apply on_map_loaded_appended; intros p n;
    unfold scattered; cbn [quaternion]; now apply setFromAxisAngle_unit.
Qed.

Hypothesis random_range : forall n, 0 <= random n < 1.

(** X10: with every draw in [0, 1), every entity the callback adds, hill or
    mountain, has X and Z scale in [0.8, 1.0] and Y scale in [0.5, 1.0],
    also when the callback throws or does not return. *)
Theorem scatter_scale_in_range (model : Model) (w : World) :
  appended (fun e => hill_or_mountain e /\ scale_in_range e) w
           (on_map_loaded UP random randomPosOver model w).
Proof.
  apply on_map_loaded_appended; intros p n.
  - split; [split; [reflexivity | now left] | now apply scattered_scale].
  - split; [split; [reflexivity | now right] | now apply scattered_scale].
Qed.

End ScatterBounds.

(** ** Concrete instances of the further properties *)

(** A level with two grass meshes after a water mesh. *)
Definition example_two_grass_lod : Lod :=
  mkLod [mkMesh TERRAIN_WATER 2; example_grass; mkMesh TERRAIN_GRASS 7].
Definition example_two_grass_model : Model := mkModel [example_two_grass_lod].

Lemma example_sampler_covers (mesh : Mesh) (spread : R) :
  covers example_sampler mesh spread.
Proof. intros p n. discriminate. Qed.

Lemma example_sampler_exact_draws (mesh : Mesh) :
  exact_draws example_sampler mesh 2.
Proof.
  intros p n. eexists. unfold example_sampler. f_equal. f_equal. lia.
Qed.

Lemma callback_hills_then_mountains_witness :
  exists hills mountains n',
    on_map_loaded example_UP example_random example_sampler example_model (mkWorld [] 0)
    = Returned tt (mkWorld ([] ++ hills ++ mountains) n')
    /\ List.length hills = 30%nat
    /\ List.length mountains = 20%nat.
Proof.
  destruct (callback_hills_then_mountains example_UP example_random example_sampler
              example_model example_lod [] example_grass example_bare (mkWorld [] 0)
              eq_refl eq_refl eq_refl
              (example_sampler_covers _ _) (example_sampler_covers _ _))
    as [hills [mountains [n' [H [H30 [H20 _]]]]]].
  exists hills, mountains, n'. split; [exact H | split; [exact H30 | exact H20]].
Defined.

Lemma callback_keeps_hills_on_missing_bare_witness :
  exists hills n',
    on_map_loaded example_UP example_random example_sampler example_two_grass_model
                  (mkWorld [] 0)
    = Thrown PreconditionViolation (mkWorld ([] ++ hills) n')
    /\ List.length hills = 30%nat.
Proof.
  destruct (callback_keeps_hills_on_missing_bare example_UP example_random
              example_sampler example_two_grass_model example_two_grass_lod []
              example_grass (mkWorld [] 0) eq_refl eq_refl eq_refl
              (example_sampler_covers _ _))
    as [hills [n' [H [H30 _]]]].
  exists hills, n'. split; [exact H | exact H30].
Defined.

Lemma callback_without_lod_witness :
  on_map_loaded example_UP example_random example_sampler (mkModel []) (mkWorld [] 0)
  = Thrown TypeError (mkWorld [] 0).
Proof.
  exact (callback_without_lod example_UP example_random example_sampler
           (mkModel []) (mkWorld [] 0) eq_refl).
Defined.

Lemma passes_use_first_match_witness :
  find_flat TERRAIN_GRASS example_two_grass_lod = Some example_grass.
Proof.
  refine (proj1 (passes_use_first_match example_UP example_random example_sampler
                   example_two_grass_model example_two_grass_lod []
                   [mkMesh TERRAIN_WATER 2] [mkMesh TERRAIN_GRASS 7] example_grass
                   TERRAIN_GRASS (mkWorld [] 0) eq_refl eq_refl eq_refl _)).
  intros m [<- | []]. discriminate.
Defined.

Lemma callback_draw_count_witness :
  exists sc,
    on_map_loaded example_UP example_random example_sampler example_model (mkWorld [] 0)
    = Returned tt (mkWorld sc 300).
Proof.
  exact (callback_draw_count example_UP example_random example_sampler
           example_model example_lod [] example_grass example_bare 2 2 (mkWorld [] 0)
           eq_refl eq_refl eq_refl
           (example_sampler_exact_draws _) (example_sampler_exact_draws _)).
Defined.

Lemma scatter_unit_quaternion_witness :
  appended (fun e => lengthSq (quaternion e) = 1) (mkWorld [] 0)
           (on_map_loaded example_UP example_random example_sampler example_model
                          (mkWorld [] 0)).
Proof.
  apply scatter_unit_quaternion. unfold example_UP. simpl. ring.
Defined.

Lemma scatter_scale_in_range_witness :
  appended (fun e => hill_or_mountain e /\ scale_in_range e) (mkWorld [] 0)
           (on_map_loaded example_UP example_random example_sampler example_model
                          (mkWorld [] 0)).
Proof.
  apply (scatter_scale_in_range example_UP example_random example_sampler
           example_random_range).
Defined.
